(** * IbPy: the inbound message receiver (ib/opt/receiver.py)

    A shallow embedding of [Receiver]: the dispatch table, the registration
    operations, the fan-out loop of [dispatch] with its exception handlers,
    the [key] helper, the per-type entry points built by [messageMethod] and
    the three [error] overloads.

    Python dictionaries with string keys are finite maps ([gmap string _]);
    a per-type listener list is a [list] stored in the table and re-read on
    every access, because the loop variable of [dispatch] and the list that
    [unregister] mutates are the same Python object.

    Names and field names are strings.  A listener is a callable that
    returns or raises; what it does besides (it does not call back into the
    receiver that is delivering to it) is outside this development. *)

From stdpp Require Import gmap strings list fin_maps.

Open Scope string_scope.
Open Scope list_scope.
Open Scope nat_scope.

(** ** Values, exceptions, messages *)

(** Python values that travel as message fields and as arguments of the
    [error] entry point. *)
#[warnings="-register-all"]
Inductive value :=
| VInt (z : Z)
| VStr (s : string)
| VTuple (vs : list value)
| VObj (id : nat).

Abbreviation dict := (gmap string value).

(** Exception classes.  [KeyboardInterrupt] and [SystemExit] derive from
    [BaseException] only; every other class derives from [Exception]. *)
Inductive pyexc :=
| KeyError
| AttributeError
| TypeError
| AssertionError
| RuntimeError (what : string)
| KeyboardInterrupt
| SystemExit.

Definition isinstance_Exception (e : pyexc) : bool :=
  match e with
  | KeyboardInterrupt | SystemExit => false
  | _ => true
  end.

(** A message instance: the class it was built from and the keyword
    arguments it was built with. *)
Record message := Message { msg_type : string; msg_fields : dict }.

(** Modelled from the spec: the message classes are defined in
    ib.opt.message, which is absent here.  A class has a [__name__] and a
    constructor that [dispatch] calls with the mapping as keyword arguments;
    whether the constructor accepts a given mapping is the class's own
    business ([mt_rejects] gives the exception it raises, if any), and an
    accepted mapping yields a message that "holds the field values
    supplied". *)
Record mtype := MType { mt_name : string; mt_rejects : dict → option pyexc }.

Definition construct (t : mtype) (mapping : dict) : pyexc + message :=
  match mt_rejects t mapping with
  | Some e => inl e
  | None => inr (Message (mt_name t) mapping)
  end.

(** Objects handed to [key], [register] and [unregister]: a message class,
    a plain string, or anything else (with or without a [__name__]). *)
Inductive pyobj :=
| OType (t : mtype)
| OStr (s : string)
| OOther (name : option string) (repr : string).

Definition getattr_name (obj : pyobj) : pyexc + string :=
  match obj with
  | OType t => inr (mt_name t)
  | OStr _ => inl AttributeError
  | OOther (Some n) _ => inr n
  | OOther None _ => inl AttributeError
  end.

Definition str (obj : pyobj) : string :=
  match obj with
  | OType t => "<class '" +:+ mt_name t +:+ "'>"
  | OStr s => s
  | OOther _ repr => repr
  end.

(** ** The receiver *)

(** Listeners are callables; they are compared by identity. *)
Abbreviation listener := nat (only parsing).

Record Receiver := mkReceiver {
  listeners : gmap string (list listener);
  types : gmap string mtype
}.

(** [Receiver.key] *)
Definition key (obj : pyobj) : string :=
  match getattr_name obj with
  | inr name => name
  | inl _ => str obj
  end.

(** [list.remove]: drops the first element equal to [x]. *)
Fixpoint list_remove (x : listener) (l : list listener) : list listener :=
  match l with
  | [] => []
  | y :: l' => if decide (x = y) then l' else y :: list_remove x l'
  end.

Definition with_listeners (self : Receiver) (tbl : gmap string (list listener)) : Receiver :=
  mkReceiver tbl (types self).

(** One round of the loop of [Receiver.register]. *)
Definition register1 (listener0 : listener) (self : Receiver) (mtype0 : pyobj) : Receiver :=
  let k := key mtype0 in
  let ls := default [] (listeners self !! k) in   (* setdefault(key, []) *)
  with_listeners self
    (<[k := if decide (listener0 ∈ ls) then ls else ls ++ [listener0]]> (listeners self)).

(** [Receiver.register] *)
Definition register (self : Receiver) (listener0 : listener) (types0 : list pyobj) : Receiver :=
  foldl (register1 listener0) self types0.

(** One round of the loop of [Receiver.unregister]. *)
Definition unregister1 (listener0 : listener) (self : Receiver) (mtype0 : pyobj) : Receiver :=
  match listeners self !! key mtype0 with
  | None => self                                   (* KeyError: pass *)
  | Some ls =>
      if decide (listener0 ∈ ls)
      then with_listeners self (<[key mtype0 := list_remove listener0 ls]> (listeners self))
      else self
  end.

(** [Receiver.unregister] *)
Definition unregister (self : Receiver) (listener0 : listener) (types0 : list pyobj) : Receiver :=
  foldl (unregister1 listener0) self types0.

(** [self.types.values()] *)
Definition types_values (self : Receiver) : list pyobj :=
  (λ p, OType p.2) <$> map_to_list (types self).

(** [Receiver.registerAll] and [Receiver.unregisterAll] *)
Definition registerAll (self : Receiver) (listener0 : listener) : Receiver :=
  register self listener0 (types_values self).

Definition unregisterAll (self : Receiver) (listener0 : listener) : Receiver :=
  unregister self listener0 (types_values self).

(** ** Dispatch *)

(** What calling a listener does: it returns, or it raises. *)
Inductive call_result :=
| Ret
| Raise (e : pyexc).

(** One block written to [sys.stdout] by the handler of [dispatch]. *)
Record report := Report { rep_handler : listener; rep_name : string }.

(** The receiver together with what an observer sees: the calls made to
    listeners, oldest first, and the diagnostic output. *)
Record world := World {
  self : Receiver;
  calls : list (listener * message);
  stdout : list report
}.

(** How a Python call ends. *)
Inductive result :=
| Returns (w : world)
| Raises (e : pyexc) (w : world).

Definition final (r : result) : world :=
  match r with Returns w => w | Raises _ w => w end.

Definition listeners_at (w : world) (k : string) : list listener :=
  default [] (listeners (self w) !! k).

(** ** Building dictionaries *)

(** [dict(pairs)]: pairs are stored left to right, so a later pair with the
    same key overwrites an earlier one. *)
Definition py_dict (pairs : list (string * value)) : dict :=
  foldl (λ d p, <[p.1 := p.2]> d) ∅ pairs.

(** [dict(k1=v1, ...)]: keyword names are distinct by syntax. *)
Definition py_kwargs (kw : list (string * value)) : dict := py_dict kw.

(** ** Overload resolution for [error] *)

(** The call shapes of the error event. *)
Inductive shape :=
| Shape1 (e : value)
| Shape2 (strval : string)
| Shape3 (id errorCode : Z) (errorMsg : string).

(** Modelled from the spec: the [overloaded] decorator is defined in
    ib.lib.overloading, which is absent here.  The spec fixes its
    resolution: "exact arity-and-type match for shape 3 first, then shape 2,
    then the generic single-value fallback (shape 1) for anything else", an
    argument combination matching no shape being handled by "treating the
    entire argument tuple as an opaque value". *)
Definition resolve (args : list value) : shape :=
  match args with
  | [VInt id; VInt errorCode; VStr errorMsg] => Shape3 id errorCode errorMsg
  | [VStr strval] => Shape2 strval
  | [e] => Shape1 e
  | _ => Shape1 (VTuple args)
  end.

(** The three shapes the protocol is known to deliver. *)
Definition recognized (args : list value) : bool :=
  match args with
  | [_] => true
  | [VInt _; VInt _; VStr _] => true
  | _ => false
  end.

Section Dispatch.

(** The behaviour of the subscribed callables. *)
Variable call : listener → message → call_result.

Definition invoked (w : world) (l : listener) (m : message) : world :=
  World (self w) (calls w ++ [(l, m)]) (stdout w).

(** The [except (Exception, )] suite of [dispatch]. *)
Definition on_fault (w : world) (l : listener) (mtype0 : mtype) (name : string) : world :=
  World (unregister (self w) l [OType mtype0]) (calls w) (stdout w ++ [Report l name]).

(** [for listener in listeners: ...], as the list iterator runs it: the
    iterator holds an index into the live list, and stops when the index
    reaches the list's current length. *)
Fixpoint for_listeners (fuel : nat) (name : string) (mtype0 : mtype)
    (msg : message) (i : nat) (w : world) : option result :=
  match fuel with
  | 0 => None
  | S fuel' =>
      match listeners_at w (key (OType mtype0)) !! i with
      | None => Some (Returns w)
      | Some l =>
          let w1 := invoked w l msg in
          match call l msg with
          | Ret => for_listeners fuel' name mtype0 msg (S i) w1
          | Raise e =>
              if isinstance_Exception e
              then for_listeners fuel' name mtype0 msg (S i) (on_fault w1 l mtype0 name)
              else Some (Raises e w1)
          end
      end
  end.

(** [Receiver.dispatch].  [None] would mean that the loop ran out of fuel;
    [dispatch_terminates] shows that it never does. *)
Definition dispatch (w : world) (name : string) (mapping : dict) : option result :=
  match types (self w) !! name with
  | None => Some (Returns w)                       (* KeyError: pass *)
  | Some mtype0 =>
      match listeners (self w) !! key (OType mtype0) with
      | None => Some (Returns w)                   (* KeyError: pass *)
      | Some ls =>
          match construct mtype0 mapping with
          | inl e => Some (Raises e w)
          | inr msg => for_listeners (S (length ls)) name mtype0 msg 0 w
          end
      end
  end.

(** ** Per-type entry points *)

(** [messageMethod(name, argnames)] returns the closure [inner]; applied to
    a receiver and the positional arguments it runs the two lines of
    [inner]. *)
Definition messageMethod (name : string) (argnames : list string)
    (w : world) (args : list value) : option result :=
  let params := py_dict (zip argnames args) in
  dispatch w name params.

(** ** The error entry point *)

(** The default implementation, [error(self, e)]. *)
Definition error (w : world) (e : value) : option result :=
  dispatch w "error" {[ "errorMsg" := e ]}.

(** [error_0(self, strval)], registered for [(object, str)]. *)
Definition error_0 (w : world) (strval : value) : option result :=
  dispatch w "error" {[ "errorMsg" := strval ]}.

(** [error_1(self, id, errorCode, errorMsg)], registered for
    [(object, int, int, str)]. *)
Definition error_1 (w : world) (id errorCode errorMsg : value) : option result :=
  let params := py_kwargs [("id", id); ("errorCode", errorCode); ("errorMsg", errorMsg)] in
  dispatch w "error" params.

(** The entry point [Receiver.error] as callers see it: resolve, then run
    the chosen body. *)
Definition overloaded_error (w : world) (args : list value) : option result :=
  match resolve args with
  | Shape3 id errorCode errorMsg => error_1 w (VInt id) (VInt errorCode) (VStr errorMsg)
  | Shape2 strval => error_0 w (VStr strval)
  | Shape1 e => error w e
  end.

End Dispatch.

(** How many of the calls [cs] went to listener [l]. *)
Definition invocations (l : listener) (cs : list (listener * message)) : nat :=
  length (filter (λ c, c.1 = l) cs).

(** What a run of the fan-out loop for the class [t] and the message [msg]
    can have done to the world, however it ends: the registry and the lists
    of other classes are as before, the list of [t] has only lost entries,
    the calls made are calls with [msg], and a listener that was called and
    raised an [Exception] is gone from a duplicate-free list. *)
Record loop_effect (call : listener → message → call_result)
    (t : mtype) (msg : message) (w w' : world) : Prop := {
  eff_types : types (self w') = types (self w);
  eff_other : ∀ k', k' ≠ key (OType t) →
    listeners (self w') !! k' = listeners (self w) !! k';
  eff_shrinks : ∀ l, l ∈ listeners_at w' (key (OType t)) →
    l ∈ listeners_at w (key (OType t));
  eff_NoDup : NoDup (listeners_at w (key (OType t))) →
    NoDup (listeners_at w' (key (OType t)));
  eff_calls : ∃ new,
    calls w' = calls w ++ new
    ∧ (∀ c, c ∈ new → c.2 = msg)
    ∧ (NoDup (listeners_at w (key (OType t))) → ∀ l e,
         (l, msg) ∈ new → call l msg = Raise e →
         isinstance_Exception e = true → l ∉ listeners_at w' (key (OType t)))
}.

(** ** Sample receivers *)

Module Examples.

(** A constructor that takes the keywords [fields] and raises on any other
    keyword. *)
Definition takes_only (fields : list string) (d : dict) : option pyexc :=
  if decide (map_Forall (λ k _, k ∈ fields) d) then None else Some TypeError.

Definition Error : mtype :=
  MType "Error" (takes_only ["id"; "errorCode"; "errorMsg"]).

Definition TickPrice : mtype :=
  MType "TickPrice" (takes_only ["tickerId"; "field"; "price"; "canAutoExecute"]).

Definition registry : gmap string mtype :=
  {[ "error" := Error; "tickPrice" := TickPrice ]}.

(** Listeners that all return. *)
Definition quiet : listener → message → call_result := λ _ _, Ret.

(** Listener 1 raises an [Exception]; the others return. *)
Definition first_raises : listener → message → call_result :=
  λ l _, if decide (l = 1) then Raise (RuntimeError "boom") else Ret.

(** Listener 1 raises [SystemExit]; the others return. *)
Definition first_exits : listener → message → call_result :=
  λ l _, if decide (l = 1) then Raise SystemExit else Ret.

(** Listeners 1, 2, 3 registered for [Error], in this order. *)
Definition three_on_error : world :=
  World (mkReceiver {[ "Error" := [1; 2; 3] ]} registry) [] [].

(** Listener 1 registered for [Error] and for [TickPrice]. *)
Definition one_on_both : world :=
  World (mkReceiver {[ "Error" := [1; 2]; "TickPrice" := [1] ]} registry) [] [].

(** [TickPrice] once had a listener, which was unregistered since. *)
Definition nobody_on_tickPrice : world :=
  World (unregister (register (mkReceiver ∅ registry) 1 [OType TickPrice])
           1 [OType TickPrice]) [] [].

End Examples.

(** ** The rest of the module *)

(** Python's truth value of a dictionary: false exactly when it is empty. *)
Definition dict_truth {A} (d : gmap string A) : bool :=
  negb (bool_decide (size d = 0)).

(** [Receiver.__init__].  [registry] is the module-level default registry
    imported from ib.opt.message; an argument that is left out is [None].
    [x if x else d] takes [d] for [None] and for an empty dictionary
    alike. *)
Definition Receiver_init (registry : gmap string mtype)
    (listeners0 : option (gmap string (list listener)))
    (types0 : option (gmap string mtype)) : Receiver :=
  mkReceiver
    (match listeners0 with
     | Some ls => if dict_truth ls then ls else ∅
     | None => ∅
     end)
    (match types0 with
     | Some ts => if dict_truth ts then ts else registry
     | None => registry
     end).

(** What a class namespace binds a name to: something written in the class
    body, or the closure [inner] that [messageMethod(name, argnames)]
    returns, which holds [name] and [argnames]. *)
Inductive attribute :=
| Written (what : string)
| Generated (name : string) (argnames : list string).

(** [ReceiverType.__new__], up to the final call of [type]: one generated
    method per pair of [wrapperMethods()], stored under the method's name. *)
Definition ReceiverType_new (wrapperMethods : list (string * list string))
    (namespace : gmap string attribute) : gmap string attribute :=
  foldl (λ ns m, <[m.1 := Generated m.1 m.2]> ns) namespace wrapperMethods.

(** The listeners registered under a key; none when the key is missing. *)
Definition registered (self : Receiver) (k : string) : list listener :=
  default [] (listeners self !! k).

(** The table holds no listener twice under one key. *)
Definition deduplicated (self : Receiver) : Prop :=
  map_Forall (λ _ ls, NoDup ls) (listeners self).

(** The listeners that the loop of [dispatch] reaches when it starts on the
    list [ls]: after a listener that raised an [Exception] the entry that
    followed it is passed over, and an exception of another kind ends the
    loop. *)
Fixpoint reached (call : listener → message → call_result) (msg : message)
    (ls : list listener) : list listener :=
  match ls with
  | [] => []
  | l :: rest =>
      l :: match call l msg with
           | Ret => reached call msg rest
           | Raise e =>
               if isinstance_Exception e
               then match rest with
                    | [] => []
                    | _ :: rest' => reached call msg rest'
                    end
               else []
           end
  end.

(** * Properties *)

(** ** [list.remove] *)

Lemma list_remove_length x l : length (list_remove x l) ≤ length l.
Proof. induction l as [|y l IH]; simpl; [lia|]. case_decide; simpl; lia. Qed.

Lemma list_remove_elem_of x y l : y ∈ list_remove x l → y ∈ l.
Proof.
  induction l as [|z l IH]; simpl; [done|].
  destruct (decide (x = z)); set_solver.
Qed.

Lemma list_remove_NoDup x l : NoDup l → NoDup (list_remove x l).
Proof.
  induction 1 as [|z l Hz Hl IH]; simpl; [constructor|].
  case_decide; [done|].
  constructor; [|done]. by intros H'%list_remove_elem_of.
Qed.

Lemma list_remove_not_elem_of x l : NoDup l → x ∉ list_remove x l.
Proof.
  induction 1 as [|z l Hz Hl IH]; simpl; [set_solver|].
  destruct (decide (x = z)); [by subst|]. set_solver.
Qed.

Lemma list_remove_absent x l : x ∉ l → list_remove x l = l.
Proof.
  induction l as [|z l IH]; simpl; [done|]; intros Hx.
  destruct (decide (x = z)); [set_solver|]. f_equal. apply IH. set_solver.
Qed.

(** Removing the entry under the iterator's index moves the rest of the list
    one place to the left: what lies after the next index afterwards is what
    lay two places on before. *)
Lemma drop_list_remove l ls i :
  ls !! i = Some l → drop (S i) (list_remove l ls) = drop (S (S i)) ls.
Proof.
  revert i. induction ls as [|y ls IH]; intros i Hi; [done|].
  simpl. destruct (decide (l = y)) as [->|Hne]; [done|].
  destruct i as [|i]; simpl in Hi; [congruence|].
  simpl. by apply IH.
Qed.

(** ** Registration *)

Lemma types_register1 l self T : types (register1 l self T) = types self.
Proof. done. Qed.

Lemma types_unregister1 l self T : types (unregister1 l self T) = types self.
Proof.
  unfold unregister1. destruct (listeners self !! key T); [|done].
  by case_decide.
Qed.

Lemma listeners_unregister_same self l T :
  listeners (unregister self l [T]) !! key T
  = list_remove l <$> listeners self !! key T.
Proof.
  simpl. unfold unregister1.
  destruct (listeners self !! key T) as [ls|] eqn:E; [|by rewrite E].
  case_decide as Hin; simpl.
  - by rewrite lookup_insert_eq.
  - by rewrite E, list_remove_absent.
Qed.

Lemma listeners_unregister_other self l T k' :
  k' ≠ key T → listeners (unregister self l [T]) !! k' = listeners self !! k'.
Proof.
  intros Hk. simpl. unfold unregister1.
  destruct (listeners self !! key T) as [ls|]; [|done].
  case_decide; [|done]. simpl. by rewrite lookup_insert_ne.
Qed.

Lemma listeners_register_same self l T :
  listeners (register self l [T]) !! key T
  = Some (let ls := default [] (listeners self !! key T) in
          if decide (l ∈ ls) then ls else ls ++ [l]).
Proof. simpl. unfold register1. simpl. by rewrite lookup_insert_eq. Qed.

Lemma listeners_register_other self l T k' :
  k' ≠ key T → listeners (register self l [T]) !! k' = listeners self !! k'.
Proof. intros Hk. simpl. unfold register1. simpl. by rewrite lookup_insert_ne. Qed.


(** [register] keeps a duplicate-free list duplicate-free. *)
Lemma register_NoDup self l T :
  NoDup (default [] (listeners self !! key T)) →
  NoDup (default [] (listeners (register self l [T]) !! key T)).
Proof.
  intros Hnd. rewrite listeners_register_same. simpl.
  case_decide as Hin; [done|].
  apply NoDup_app. split_and!; [done| |apply NoDup_singleton].
  intros x Hx ->%list_elem_of_singleton. done.
Qed.

(** ** Dictionaries built from pairs *)

Lemma py_dict_from_absent pairs (d : dict) k :
  k ∉ pairs.*1 →
  foldl (λ d p, <[p.1 := p.2]> d) d pairs !! k = d !! k.
Proof.
  revert d. induction pairs as [|[k' v] pairs IH]; intros d Hk; [done|].
  rewrite fmap_cons in Hk. simpl in *.
  rewrite IH by set_solver. apply lookup_insert_ne. set_solver.
Qed.

Lemma py_dict_from_present pairs (d : dict) i k v :
  NoDup pairs.*1 → pairs !! i = Some (k, v) →
  foldl (λ d p, <[p.1 := p.2]> d) d pairs !! k = Some v.
Proof.
  revert d i. induction pairs as [|[k' v'] pairs IH]; intros d i Hnd Hi; [done|].
  rewrite fmap_cons in Hnd. apply NoDup_cons in Hnd as [Hk' Hnd].
  destruct i as [|i]; simpl in *.
  - injection Hi as -> ->. rewrite py_dict_from_absent by done.
    apply lookup_insert_eq.
  - by eapply IH.
Qed.

Lemma py_dict_from_is_Some pairs (d : dict) k :
  is_Some (foldl (λ d p, <[p.1 := p.2]> d) d pairs !! k)
  ↔ k ∈ pairs.*1 ∨ is_Some (d !! k).
Proof.
  revert d. induction pairs as [|[k' v] pairs IH]; intros d.
  - simpl. set_solver.
  - rewrite fmap_cons. simpl. rewrite IH, elem_of_cons.
    destruct (decide (k' = k)) as [->|Hne].
    + rewrite lookup_insert_eq. split; [auto|]. intros _. right. by eexists.
    + rewrite lookup_insert_ne by done. split; [intros [?|?]; auto|].
      intros [[?|?]|?]; auto. congruence.
Qed.

Lemma zip_names_take {A B} (a : list A) (b : list B) :
  (zip a b).*1 = take (length b) a.
Proof.
  revert b. induction a as [|x a IH]; intros [|y b]; simpl; try done.
  by rewrite IH.
Qed.

Lemma zip_lookup_both {A B} (a : list A) (b : list B) i x y :
  a !! i = Some x → b !! i = Some y → zip a b !! i = Some (x, y).
Proof.
  revert b i. induction a as [|x' a IH]; intros [|y' b] [|i]; simpl; try done.
  - by intros [= ->] [= ->].
  - apply IH.
Qed.

Lemma zip_ignores_extra {A B} (a : list A) (b : list B) :
  zip a b = zip a (take (length a) b).
Proof.
  revert b. induction a as [|x a IH]; intros [|y b]; simpl; try done.
  by rewrite <- IH.
Qed.

(** ** Counting calls *)



Lemma invocations_none l cs :
  (∀ c, c ∈ cs → c.1 ≠ l) → invocations l cs = 0.
Proof.
  unfold invocations. induction cs as [|c cs IH]; intros Hcs; [done|].
  rewrite filter_cons_False by (apply Hcs; set_solver).
  apply IH. intros c' Hc'. apply Hcs. set_solver.
Qed.

(** ** The fan-out loop *)

Section Loop.

Variable call : listener → message → call_result.
Variables (name : string) (t : mtype) (msg : message).

Abbreviation k := (key (OType t)).

Lemma listeners_at_on_fault w l :
  listeners_at (on_fault w l t name) k = list_remove l (listeners_at w k).
Proof.
  unfold listeners_at.
  change (self (on_fault w l t name)) with (unregister (self w) l [OType t]).
  rewrite listeners_unregister_same.
  by destruct (listeners (self w) !! k).
Qed.

(** Each round moves the index forward and never lengthens the list, so
    the loop needs at most one round more than the list is long. *)
Lemma for_listeners_terminates fuel i w :
  length (listeners_at w k) - i < fuel →
  is_Some (for_listeners call fuel name t msg i w).
Proof.
  revert i w. induction fuel as [|fuel IH]; intros i w Hlen; [lia|].
  simpl. destruct (listeners_at w k !! i) as [l|] eqn:E; [|done].
  apply lookup_lt_Some in E.
  destruct (call l msg) as [|e].
  - apply IH. change (listeners_at (invoked w l msg) k) with (listeners_at w k). lia.
  - destruct (isinstance_Exception e); [|done].
    apply IH. rewrite listeners_at_on_fault.
    change (listeners_at (invoked w l msg) k) with (listeners_at w k).
    pose proof (list_remove_length l (listeners_at w k)). lia.
Qed.


(** When listeners raise nothing but [Exception]s, the loop returns. *)
Lemma for_listeners_returns fuel i w :
  length (listeners_at w k) - i < fuel →
  (∀ l e, l ∈ listeners_at w k → call l msg = Raise e →
          isinstance_Exception e = true) →
  ∃ w', for_listeners call fuel name t msg i w = Some (Returns w').
Proof.
  revert i w. induction fuel as [|fuel IH]; intros i w Hlen Hexc; [lia|].
  simpl. destruct (listeners_at w k !! i) as [l|] eqn:E; [|by eexists].
  pose proof (lookup_lt_Some _ _ _ E) as Hi.
  destruct (call l msg) as [|e] eqn:Ec.
  - apply IH; [|done].
    change (listeners_at (invoked w l msg) k) with (listeners_at w k). lia.
  - rewrite (Hexc l e) by (done || by eapply list_elem_of_lookup_2).
    apply IH.
    + rewrite listeners_at_on_fault.
      change (listeners_at (invoked w l msg) k) with (listeners_at w k).
      pose proof (list_remove_length l (listeners_at w k)). lia.
    + intros l' e'. rewrite listeners_at_on_fault.
      intros Hl'%list_remove_elem_of. by apply Hexc.
Qed.

End Loop.

Section LoopEffects.

Variable call : listener → message → call_result.
Variables (name : string) (t : mtype) (msg : message).

Abbreviation kt := (key (OType t)).

Lemma loop_effect_refl w : loop_effect call t msg w w.
Proof.
  split; try done. exists []. rewrite app_nil_r.
  split_and!; [done|set_solver|set_solver].
Qed.

Lemma for_listeners_effect fuel i w r :
  for_listeners call fuel name t msg i w = Some r →
  loop_effect call t msg w (final r).
Proof.
  revert i w r. induction fuel as [|fuel IH]; intros i w r; [done|].
  simpl. destruct (listeners_at w kt !! i) as [l|] eqn:E.
  2:{ intros [= <-]. apply loop_effect_refl. }
  destruct (call l msg) as [|e] eqn:Ec.
  - (* the listener returned *)
    intros [Ht Ho Hs Hn (new & Hc & Hm & Hf)]%IH.
    split; try done.
    exists ((l, msg) :: new). split_and!.
    + rewrite Hc. simpl. by rewrite <- app_assoc.
    + intros c [->|Hc']%elem_of_cons; [done|by apply Hm].
    + intros Hnd l' e' [[= ->]|Hin]%elem_of_cons He' Hi'; [congruence|].
      by eapply Hf.
  - destruct (isinstance_Exception e) eqn:Ee.
    + (* the listener raised an Exception and was unregistered *)
      intros [Ht Ho Hs Hn (new & Hc & Hm & Hf)]%IH.
      rewrite listeners_at_on_fault in Hs, Hn, Hf.
      change (listeners_at (invoked w l msg) kt) with (listeners_at w kt) in *.
      split.
      * rewrite Ht. simpl. apply types_unregister1.
      * intros k' Hk'. rewrite Ho by done.
        change (self (on_fault (invoked w l msg) l t name))
          with (unregister (self w) l [OType t]).
        by apply listeners_unregister_other.
      * intros l' Hl'. by eapply list_remove_elem_of, Hs.
      * intros Hnd. by apply Hn, list_remove_NoDup.
      * exists ((l, msg) :: new). split_and!.
        -- rewrite Hc. simpl. by rewrite <- app_assoc.
        -- intros c [->|Hc']%elem_of_cons; [done|by apply Hm].
        -- intros Hnd l' e' [[= ->]|Hin]%elem_of_cons He' Hi'.
           ++ intros Hl'%Hs. by eapply list_remove_not_elem_of.
           ++ eapply Hf; eauto using list_remove_NoDup.
    + (* the listener raised something else, which leaves the loop *)
      intros [= <-]. simpl. split; try done.
      exists [(l, msg)]. split_and!; [done|set_solver|].
      intros Hnd l' e' [= ->]%list_elem_of_singleton He'. congruence.
Qed.

(** The loop only calls entries that lie at or after its index. *)
Lemma for_listeners_calls_from_index fuel i w r :
  for_listeners call fuel name t msg i w = Some r →
  ∃ new, calls (final r) = calls w ++ new
         ∧ ∀ c, c ∈ new → c.1 ∈ drop i (listeners_at w kt).
Proof.
  revert i w r. induction fuel as [|fuel IH]; intros i w r; [done|].
  simpl. destruct (listeners_at w kt !! i) as [l|] eqn:E.
  2:{ intros [= <-]. exists []. rewrite app_nil_r. set_solver. }
  rewrite (drop_S _ _ _ E).
  destruct (call l msg) as [|e] eqn:Ec.
  - intros (new & Hc & Hin)%IH.
    change (listeners_at (invoked w l msg) kt) with (listeners_at w kt) in Hin.
    exists ((l, msg) :: new). split.
    + rewrite Hc. simpl. by rewrite <- app_assoc.
    + intros c [->|Hc']%elem_of_cons; [set_solver|].
      apply elem_of_cons. right. by apply Hin.
  - destruct (isinstance_Exception e).
    + intros (new & Hc & Hin)%IH.
      rewrite listeners_at_on_fault in Hin.
      change (listeners_at (invoked w l msg) kt) with (listeners_at w kt) in Hin.
      rewrite (drop_list_remove _ _ _ E) in Hin.
      exists ((l, msg) :: new). split.
      * rewrite Hc. simpl. by rewrite <- app_assoc.
      * intros c [->|Hc']%elem_of_cons; [set_solver|].
        apply elem_of_cons. right.
        eapply elem_of_sublist; [apply Hin, Hc'|].
        replace (S (S i)) with (S i + 1) by lia.
        rewrite <- drop_drop. apply sublist_drop.
    + intros [= <-]. exists [(l, msg)]. simpl. set_solver.
Qed.

End LoopEffects.

(** ** [dispatch] as a whole *)

Section DispatchFacts.

Variable call : listener → message → call_result.

(** The loop of [dispatch] never runs out of fuel. *)
Lemma dispatch_terminates w name mapping :
  is_Some (dispatch call w name mapping).
Proof.
  unfold dispatch.
  destruct (types (self w) !! name) as [t|]; [|done].
  destruct (listeners (self w) !! key (OType t)) as [ls|] eqn:E; [|done].
  destruct (construct t mapping); [done|].
  apply for_listeners_terminates.
  unfold listeners_at. rewrite E. simpl. lia.
Qed.

(** [dispatch] touches no list but the one of the dispatched type. *)
Lemma dispatch_effect w name mapping r t msg :
  dispatch call w name mapping = Some r →
  types (self w) !! name = Some t →
  construct t mapping = inr msg →
  loop_effect call t msg w (final r).
Proof.
  unfold dispatch. intros Hd Ht Hc. rewrite Ht in Hd.
  destruct (listeners (self w) !! key (OType t)) as [ls|] eqn:E.
  - rewrite Hc in Hd. by eapply for_listeners_effect.
  - injection Hd as <-. apply loop_effect_refl.
Qed.


(** The listener that follows a faulty one in the list is passed over: the
    faulty listener is taken out of the list while the iterator's index
    still moves on by one. *)
Lemma dispatch_skips_next w name mapping t l1 l2 rest e :
  types (self w) !! name = Some t →
  listeners (self w) !! key (OType t) = Some (l1 :: l2 :: rest) →
  NoDup (l1 :: l2 :: rest) →
  mt_rejects t mapping = None →
  call l1 (Message (mt_name t) mapping) = Raise e →
  isinstance_Exception e = true →
  ∃ r new,
    dispatch call w name mapping = Some r
    ∧ calls (final r) = calls w ++ new
    ∧ invocations l2 new = 0.
Proof.
  intros Ht Hls Hnd Hctor Hraise Hexc.
  destruct (dispatch_terminates w name mapping) as [r Hr].
  pose proof Hr as Hr'. unfold dispatch, construct in Hr'.
  rewrite Ht, Hls, Hctor in Hr'.
  remember (length (l1 :: l2 :: rest)) as fuel eqn:Hfuel. clear Hfuel.
  simpl in Hr'.
  unfold listeners_at at 1 in Hr'. rewrite Hls in Hr'. simpl in Hr'.
  rewrite Hraise, Hexc in Hr'.
  apply for_listeners_calls_from_index in Hr' as (new & Hc & Hin).
  rewrite listeners_at_on_fault in Hin. unfold listeners_at in Hin.
  simpl in Hin. rewrite Hls in Hin. simpl in Hin.
  rewrite decide_True in Hin by done. simpl in Hin.
  apply NoDup_cons in Hnd as [Hl1 [Hl2 _]%NoDup_cons].
  exists r, ((l1, Message (mt_name t) mapping) :: new). split_and!; [done| |].
  - rewrite Hc. simpl. by rewrite <- app_assoc.
  - apply invocations_none. intros c [->|Hc']%elem_of_cons.
    + simpl. set_solver.
    + intros <-. by apply Hl2, Hin.
Qed.

(** An exception that is not an [Exception] leaves [dispatch] from inside
    the loop: the listener stays registered and the listeners after it are
    not called. *)
Lemma dispatch_propagates_other_exceptions w name mapping t l1 rest e :
  types (self w) !! name = Some t →
  listeners (self w) !! key (OType t) = Some (l1 :: rest) →
  mt_rejects t mapping = None →
  call l1 (Message (mt_name t) mapping) = Raise e →
  isinstance_Exception e = false →
  dispatch call w name mapping
  = Some (Raises e (invoked w l1 (Message (mt_name t) mapping))).
Proof.
  intros Ht Hls Hctor Hraise Hexc.
  unfold dispatch, construct. rewrite Ht, Hls, Hctor.
  remember (length (l1 :: rest)) as fuel eqn:Hfuel. clear Hfuel.
  simpl. unfold listeners_at at 1. rewrite Hls. simpl.
  by rewrite Hraise, Hexc.
Qed.

End DispatchFacts.

(** With listener 1 raising [SystemExit], the exception reaches the caller
    of [dispatch]; listener 1 stays registered and listeners 2 and 3 are not
    called. *)
Example dispatch_interrupted_by_SystemExit :
  let w := Examples.three_on_error in
  dispatch Examples.first_exits w "error" ∅
  = Some (Raises SystemExit (invoked w 1 (Message "Error" ∅))).
Proof. by vm_compute. Qed.

(** * The claims *)

(** C1.  If a listener raises while [dispatch] delivers an event of type T,
    the call returns normally and every other listener registered for T
    when the call began is still invoked.  The code does not do this: with
    listeners 1, 2, 3 registered for [Error] and listener 1 raising a
    [RuntimeError], [dispatch] returns normally and unregisters listener 1,
    but the list iterator then stands at index 1 of the shortened list
    [2; 3], so listener 3 is called and listener 2, which raises nothing, is
    never called. *)
Theorem dispatch_skips_listener_after_fault :
  let w := Examples.three_on_error in
  let mapping : dict := {[ "errorMsg" := VStr "bad feed" ]} in
  let msg := Message "Error" mapping in
  listeners_at w "Error" = [1; 2; 3]
  ∧ Examples.first_raises 2 msg = Ret
  ∧ ∃ w', dispatch Examples.first_raises w "error" mapping = Some (Returns w')
          ∧ calls w' = [(1, msg); (3, msg)]
          ∧ listeners_at w' "Error" = [2; 3].
Proof.
  cbv zeta. split_and!; [done|done|].
  eexists. split_and!; [by vm_compute|by vm_compute..].
Qed.

(** C2, as stated, fails: the message is built after the guarded lookups and
    before the guarded listener calls, so an exception of the constructor
    leaves [dispatch].  Here [TickPrice] has a listener and the mapping has
    a keyword that the constructor does not take. *)
Lemma dispatch_propagates_constructor_error :
  let w := Examples.one_on_both in
  let mapping : dict := {[ "size" := VInt 100 ]} in
  dispatch Examples.quiet w "tickPrice" mapping = Some (Raises TypeError w)
  ∧ ¬ ∃ w', dispatch Examples.quiet w "tickPrice" mapping = Some (Returns w').
Proof.
  cbv zeta.
  assert (dispatch Examples.quiet Examples.one_on_both "tickPrice"
            {[ "size" := VInt 100 ]}
          = Some (Raises TypeError Examples.one_on_both)) as E by (by vm_compute).
  split; [done|]. rewrite E. by intros [w' [=]].
Qed.

(** C2, amended.  [dispatch] returns normally for every name and mapping
    provided that the constructor, when the call gets as far as building the
    message, accepts the mapping, and that listeners raise nothing but
    instances of [Exception]: a missing type, a missing table entry and such
    listener exceptions are all absorbed.  An exception raised by the
    constructor is passed on to the caller, with the world untouched. *)
Theorem dispatch_returns_normally call w name mapping :
  ((∀ t, types (self w) !! name = Some t →
         is_Some (listeners (self w) !! key (OType t)) →
         mt_rejects t mapping = None) →
   (∀ t ls msg l e,
         types (self w) !! name = Some t →
         listeners (self w) !! key (OType t) = Some ls →
         construct t mapping = inr msg →
         l ∈ ls → call l msg = Raise e → isinstance_Exception e = true) →
   ∃ w', dispatch call w name mapping = Some (Returns w'))
  ∧ (∀ t ls e,
       types (self w) !! name = Some t →
       listeners (self w) !! key (OType t) = Some ls →
       mt_rejects t mapping = Some e →
       dispatch call w name mapping = Some (Raises e w)).
Proof.
  split.
  - intros Hctor Hexc. unfold dispatch.
    destruct (types (self w) !! name) as [t|] eqn:Et; [|by eexists].
    destruct (listeners (self w) !! key (OType t)) as [ls|] eqn:El; [|by eexists].
    assert (mt_rejects t mapping = None) as Hr
      by (apply Hctor; [done|by rewrite El]).
    assert (construct t mapping = inr (Message (mt_name t) mapping)) as Hc
      by (unfold construct; by rewrite Hr).
    rewrite Hc. apply for_listeners_returns.
    + unfold listeners_at. rewrite El. simpl. lia.
    + intros l e Hl. unfold listeners_at in Hl. rewrite El in Hl.
      by eapply Hexc.
  - intros t ls e Et El He. unfold dispatch, construct.
    by rewrite Et, El, He.
Qed.

(** Both halves on sample receivers: a raising listener is absorbed, a
    rejected mapping is not. *)
Lemma dispatch_returns_normally_witness :
  let w := Examples.three_on_error in
  let mapping : dict := {[ "errorMsg" := VInt 42 ]} in
  (∃ w', dispatch Examples.first_raises w "error" mapping = Some (Returns w'))
  ∧ dispatch Examples.quiet Examples.one_on_both "tickPrice"
      {[ "size" := VInt 100 ]}
    = Some (Raises TypeError Examples.one_on_both).
Proof.
  cbv zeta. split.
  - apply (proj1 (dispatch_returns_normally Examples.first_raises
                    Examples.three_on_error "error" {[ "errorMsg" := VInt 42 ]})).
    + intros t [= <-]%(inj Some) _. reflexivity.
    + intros t ls msg l e _ _ _ _. unfold Examples.first_raises.
      destruct (decide (l = 1)); intros [= <-]. reflexivity.
  - apply (proj2 (dispatch_returns_normally Examples.quiet
                    Examples.one_on_both "tickPrice" {[ "size" := VInt 100 ]})
             Examples.TickPrice [1]);
      reflexivity.
Defined.

(** C3.  An argument combination of the error entry point that matches none
    of the three recognized shapes is handled by the default body with the
    whole argument tuple as its single value: the call is exactly
    [dispatch('error', {errorMsg: args})], it ends (the resolution itself
    raises nothing), and whatever it does is what that [dispatch] does. *)
Theorem error_falls_back_to_single_value call w args :
  recognized args = false →
  resolve args = Shape1 (VTuple args)
  ∧ overloaded_error call w args
    = dispatch call w "error" {[ "errorMsg" := VTuple args ]}
  ∧ is_Some (overloaded_error call w args).
Proof.
  intros Hrec.
  assert (resolve args = Shape1 (VTuple args)) as Hres.
  { unfold resolve, recognized in *. by repeat case_match. }
  split_and!; [done|by unfold overloaded_error; rewrite Hres|].
  unfold overloaded_error. rewrite Hres. apply dispatch_terminates.
Qed.

(** A call with two arguments, which is none of the three shapes. *)
Lemma error_falls_back_to_single_value_witness :
  let args := [VInt 7; VStr "timeout"] in
  resolve args = Shape1 (VTuple args)
  ∧ overloaded_error Examples.quiet Examples.three_on_error args
    = dispatch Examples.quiet Examples.three_on_error "error"
        {[ "errorMsg" := VTuple args ]}
  ∧ is_Some (overloaded_error Examples.quiet Examples.three_on_error args).
Proof.
  cbv zeta.
  apply (error_falls_back_to_single_value Examples.quiet Examples.three_on_error
           [VInt 7; VStr "timeout"]).
  reflexivity.
Defined.

(** C6.  The three recognized call shapes of the error entry point:
    [error(42)] forwards [{errorMsg: 42}], [error("bad feed")] forwards
    [{errorMsg: "bad feed"}] and [error(7, 504, "timeout")] forwards
    [{id: 7, errorCode: 504, errorMsg: "timeout"}]; each call is one call of
    [dispatch] for the name ['error'] and does nothing besides. *)
Theorem error_shapes_forward_to_dispatch call w :
  overloaded_error call w [VInt 42]
  = dispatch call w "error" {[ "errorMsg" := VInt 42 ]}
  ∧ overloaded_error call w [VStr "bad feed"]
    = dispatch call w "error" {[ "errorMsg" := VStr "bad feed" ]}
  ∧ overloaded_error call w [VInt 7; VInt 504; VStr "timeout"]
    = dispatch call w "error"
        {[ "id" := VInt 7; "errorCode" := VInt 504; "errorMsg" := VStr "timeout" ]}
  ∧ (∀ v, overloaded_error call w [v]
          = dispatch call w "error" {[ "errorMsg" := v ]})
  ∧ (∀ id errorCode errorMsg,
        overloaded_error call w [VInt id; VInt errorCode; VStr errorMsg]
        = dispatch call w "error"
            {[ "id" := VInt id; "errorCode" := VInt errorCode;
               "errorMsg" := VStr errorMsg ]}).
Proof.
  assert (∀ a b c : value,
            py_kwargs [("id", a); ("errorCode", b); ("errorMsg", c)]
            = {[ "id" := a; "errorCode" := b; "errorMsg" := c ]}) as Hkw.
  { intros a b c. by vm_compute. }
  assert (∀ id errorCode errorMsg,
            overloaded_error call w [VInt id; VInt errorCode; VStr errorMsg]
            = dispatch call w "error"
                {[ "id" := VInt id; "errorCode" := VInt errorCode;
                   "errorMsg" := VStr errorMsg ]}) as Hthree.
  { intros id errorCode errorMsg.
    unfold overloaded_error. cbv beta iota zeta delta [resolve error_1].
    by rewrite Hkw. }
  split_and!; [done|done|apply Hthree| |apply Hthree].
  intros v. by destruct v.
Qed.



(** C5.  When a listener raises (an instance of [Exception], which is what
    the handler of [dispatch] catches) while an event of type T is
    dispatched, then once [dispatch] is over that listener is no longer in
    T's list, and the list of every other type is what it was before: the
    listener stays registered wherever else it was.  T's list is
    duplicate-free, as [register] keeps it. *)
Theorem faulty_listener_removed_from_its_type_only call w name mapping t ls :
  types (self w) !! name = Some t →
  listeners (self w) !! key (OType t) = Some ls →
  NoDup ls →
  ∃ r new,
    dispatch call w name mapping = Some r
    ∧ calls (final r) = calls w ++ new
    ∧ (∀ l msg e,
         (l, msg) ∈ new → call l msg = Raise e → isinstance_Exception e = true →
         l ∉ listeners_at (final r) (key (OType t)))
    ∧ (∀ k', k' ≠ key (OType t) →
         listeners (self (final r)) !! k' = listeners (self w) !! k').
Proof.
  intros Ht Hls Hnd.
  destruct (dispatch_terminates call w name mapping) as [r Hr].
  destruct (construct t mapping) as [e|msg] eqn:Hc.
  - (* the constructor raised: no listener was called *)
    exists r, []. pose proof Hr as Hr'.
    unfold dispatch in Hr'. rewrite Ht, Hls, Hc in Hr'.
    injection Hr' as <-. simpl. rewrite app_nil_r.
    split_and!; [done|done|set_solver|done].
  - destruct (dispatch_effect call w name mapping r t msg Hr Ht Hc)
      as [_ Ho _ _ (new & Hcalls & Hmsg & Hgone)].
    exists r, new. split_and!; [done|done| |done].
    intros l msg' e Hin Hraise Hexc.
    pose proof (Hmsg _ Hin) as Hm. simpl in Hm. subst msg'.
    eapply Hgone; [|done..].
    unfold listeners_at. by rewrite Hls.
Qed.

(** Listener 1, registered for [Error] and [TickPrice], raises on an error
    event. *)
Lemma faulty_listener_removed_from_its_type_only_witness :
  let w := Examples.one_on_both in
  ∃ r new,
    dispatch Examples.first_raises w "error" ∅ = Some r
    ∧ calls (final r) = calls w ++ new
    ∧ (∀ l msg e,
         (l, msg) ∈ new → Examples.first_raises l msg = Raise e →
         isinstance_Exception e = true →
         l ∉ listeners_at (final r) "Error")
    ∧ (∀ k', k' ≠ "Error" →
         listeners (self (final r)) !! k' = listeners (self w) !! k').
Proof.
  cbv zeta.
  apply (faulty_listener_removed_from_its_type_only Examples.first_raises
           Examples.one_on_both "error" ∅ Examples.Error [1; 2]).
  - reflexivity.
  - reflexivity.
  - apply NoDup_ListNoDup. repeat constructor; simpl; lia.
Defined.

(** C7, as stated, fails for a known type whose list is in the table but
    empty: [dispatch] tests only that the two lookups succeed, so it goes on
    to build the message, and an exception of the constructor reaches the
    caller.  Here the only listener of [TickPrice] was unregistered and the
    mapping has a keyword that the constructor does not take. *)
Lemma dispatch_builds_message_for_empty_list :
  let w := Examples.nobody_on_tickPrice in
  types (self w) !! "tickPrice" = Some Examples.TickPrice
  ∧ listeners (self w) !! key (OType Examples.TickPrice) = Some []
  ∧ dispatch Examples.quiet w "tickPrice" {[ "size" := VInt 100 ]}
    = Some (Raises TypeError w).
Proof. cbv zeta. split_and!; by vm_compute. Qed.

(** C7, amended.  Dispatching a name that is not in the type registry, or a
    known type that has no entry in the dispatch table, calls no listener,
    leaves the table as it is and returns normally.  For a known type whose
    entry is an empty list the message is still built: no listener is
    called and the table is left as it is, and the call returns normally
    when the constructor accepts the mapping and otherwise passes the
    constructor's exception on. *)
Theorem dispatch_without_listeners call w name mapping :
  (types (self w) !! name = None →
   dispatch call w name mapping = Some (Returns w))
  ∧ (∀ t, types (self w) !! name = Some t →
          listeners (self w) !! key (OType t) = None →
          dispatch call w name mapping = Some (Returns w))
  ∧ (∀ t, types (self w) !! name = Some t →
          listeners (self w) !! key (OType t) = Some [] →
          dispatch call w name mapping
          = match mt_rejects t mapping with
            | None => Some (Returns w)
            | Some e => Some (Raises e w)
            end).
Proof.
  unfold dispatch, construct. split_and!.
  - by intros ->.
  - intros t Ht Hl. by rewrite Ht, Hl.
  - intros t Ht Hl. rewrite Ht, Hl.
    destruct (mt_rejects t mapping); [done|].
    simpl. unfold listeners_at. by rewrite Hl.
Qed.

(** An unknown name, a type without a table entry, and a type with an empty
    list and an accepted mapping. *)
Lemma dispatch_without_listeners_witness :
  dispatch Examples.first_raises Examples.three_on_error "openOrder" ∅
  = Some (Returns Examples.three_on_error)
  ∧ dispatch Examples.first_raises Examples.three_on_error "tickPrice" ∅
    = Some (Returns Examples.three_on_error)
  ∧ dispatch Examples.first_raises Examples.nobody_on_tickPrice "tickPrice"
      {[ "price" := VInt 3 ]}
    = Some (Returns Examples.nobody_on_tickPrice).
Proof.
  split_and!.
  - apply (proj1 (dispatch_without_listeners Examples.first_raises
                    Examples.three_on_error "openOrder" ∅)).
    reflexivity.
  - apply (proj1 (proj2 (dispatch_without_listeners Examples.first_raises
                           Examples.three_on_error "tickPrice" ∅))
             Examples.TickPrice); reflexivity.
  - refine (eq_trans
              (proj2 (proj2 (dispatch_without_listeners Examples.first_raises
                               Examples.nobody_on_tickPrice "tickPrice"
                               {[ "price" := VInt 3 ]}))
                 Examples.TickPrice _ _) _); reflexivity.
Defined.



(** C9.  [key] reads nothing but its argument, so two calls on the same
    object agree; and it identifies a type with its name: the key of a type
    object is the key of the string that is the type's name, the key of any
    object that has a name is the key of that name, and the key of a key is
    that key again. *)
Theorem key_identifies_type_with_name :
  (∀ t, key (OType t) = key (OStr (mt_name t)))
  ∧ (∀ t, key (OType t) = mt_name t)
  ∧ (∀ s, key (OStr s) = s)
  ∧ (∀ n repr, key (OOther (Some n) repr) = key (OStr n))
  ∧ (∀ obj, key (OStr (key obj)) = key obj).
Proof. by split_and!. Qed.

(** C10.  The entry point that [messageMethod] builds for a type zips the
    field names with the positional arguments, makes a dictionary of the
    pairs and hands it to [dispatch] under the type's name; it does nothing
    else, so it ends for every argument count and whatever it does is what
    that [dispatch] does.  The dictionary has exactly the field names that
    got an argument: with distinct field names, the i-th name maps to the
    i-th argument when there is one and is absent otherwise, and arguments
    beyond the last field name change nothing. *)
Theorem messageMethod_zips_and_forwards call name argnames w args :
  messageMethod call name argnames w args
  = dispatch call w name (py_dict (zip argnames args))
  ∧ is_Some (messageMethod call name argnames w args)
  ∧ (∀ n, is_Some (py_dict (zip argnames args) !! n)
          ↔ n ∈ take (length args) argnames)
  ∧ (NoDup argnames → ∀ i n,
       argnames !! i = Some n →
       py_dict (zip argnames args) !! n = args !! i)
  ∧ (∀ extra,
       length argnames ≤ length args →
       messageMethod call name argnames w (args ++ extra)
       = messageMethod call name argnames w args).
Proof.
  split_and!.
  - done.
  - apply dispatch_terminates.
  - intros n. unfold py_dict. rewrite py_dict_from_is_Some, zip_names_take.
    rewrite lookup_empty. split; [intros [?|[? [=]]]; done|auto].
  - intros Hnd i n Hi. unfold py_dict.
    destruct (args !! i) as [v|] eqn:Ha.
    + eapply py_dict_from_present; [|by apply zip_lookup_both].
      rewrite zip_names_take. eapply sublist_NoDup; [done|apply sublist_take].
    + rewrite py_dict_from_absent; [done|].
      rewrite zip_names_take. intros [j Hj]%list_elem_of_lookup.
      apply lookup_take_Some in Hj as [Hj Hlt].
      apply lookup_ge_None in Ha.
      pose proof (NoDup_lookup _ _ _ _ Hnd Hi Hj). lia.
  - intros extra Hlen. unfold messageMethod. cbv zeta.
    rewrite (zip_ignores_extra argnames (args ++ extra)).
    rewrite (zip_ignores_extra argnames args).
    by rewrite take_app_le.
Qed.

(** The entry point of [tickPrice] with one argument too few, and with one
    too many. *)
Lemma messageMethod_zips_and_forwards_witness :
  let argnames := ["tickerId"; "field"; "price"] in
  let d := py_dict (zip argnames [VInt 1; VInt 4]) in
  d !! "tickerId" = Some (VInt 1)
  ∧ d !! "field" = Some (VInt 4)
  ∧ d !! "price" = None
  ∧ messageMethod Examples.quiet "tickPrice" argnames Examples.one_on_both
      ([VInt 1; VInt 4; VInt 9] ++ [VObj 0])
    = messageMethod Examples.quiet "tickPrice" argnames Examples.one_on_both
        [VInt 1; VInt 4; VInt 9].
Proof.
  cbv zeta.
  assert (NoDup ["tickerId"; "field"; "price"]) as Hnd.
  { apply NoDup_ListNoDup. repeat constructor; simpl; intuition congruence. }
  pose proof (messageMethod_zips_and_forwards Examples.quiet "tickPrice"
                ["tickerId"; "field"; "price"] Examples.one_on_both
                [VInt 1; VInt 4]) as (_ & _ & _ & Hlook & _).
  pose proof (messageMethod_zips_and_forwards Examples.quiet "tickPrice"
                ["tickerId"; "field"; "price"] Examples.one_on_both
                [VInt 1; VInt 4; VInt 9]) as (_ & _ & _ & _ & Hextra).
  split_and!.
  - apply (Hlook Hnd 0). reflexivity.
  - apply (Hlook Hnd 1). reflexivity.
  - apply (Hlook Hnd 2). reflexivity.
  - apply Hextra. simpl. lia.
Defined.

(** * Further properties *)

(** ** More on [list.remove] *)

Lemma list_remove_sublist x l : list_remove x l `sublist_of` l.
Proof.
  induction l as [|y l IH]; simpl; [done|].
  destruct (decide (x = y)); [by apply sublist_cons|by apply sublist_skip].
Qed.


Lemma list_remove_snoc x l : x ∉ l → list_remove x (l ++ [x]) = l.
Proof.
  induction l as [|y l IH]; simpl; intros Hx.
  - by rewrite decide_True.
  - apply not_elem_of_cons in Hx as [Hne Hx].
    rewrite decide_False by done. f_equal. by apply IH.
Qed.

(** ** One round of [register] and of [unregister] *)

Lemma registered_register1 l r T k :
  registered (register1 l r T) k
  = if decide (k = key T ∧ l ∉ registered r k)
    then registered r k ++ [l] else registered r k.
Proof.
  unfold registered, register1. simpl.
  destruct (decide (k = key T)) as [->|Hne].
  - rewrite lookup_insert_eq. simpl.
    destruct (decide (l ∈ default [] (listeners r !! key T))).
    + by rewrite decide_False by naive_solver.
    + by rewrite decide_True by naive_solver.
  - rewrite lookup_insert_ne by done. by rewrite decide_False by naive_solver.
Qed.

Lemma registered_unregister1 l r T k :
  registered (unregister1 l r T) k
  = if decide (k = key T) then list_remove l (registered r k)
    else registered r k.
Proof.
  unfold registered, unregister1.
  destruct (listeners r !! key T) as [ls|] eqn:E.
  - destruct (decide (l ∈ ls)) as [Hin|Hin]; simpl.
    + destruct (decide (k = key T)) as [->|Hne].
      * by rewrite lookup_insert_eq, E.
      * by rewrite lookup_insert_ne.
    + destruct (decide (k = key T)) as [->|Hne]; [|done].
      rewrite E. simpl. by rewrite list_remove_absent.
  - destruct (decide (k = key T)) as [->|Hne]; [|done]. by rewrite E.
Qed.

Lemma is_Some_unregister1 l r T k :
  is_Some (listeners (unregister1 l r T) !! k) ↔ is_Some (listeners r !! k).
Proof.
  unfold unregister1.
  destruct (listeners r !! key T) as [ls|] eqn:E; [|done].
  destruct (decide (l ∈ ls)); [|done]. simpl.
  destruct (decide (k = key T)) as [->|Hne].
  - rewrite lookup_insert_eq, E. split; by eexists.
  - by rewrite lookup_insert_ne.
Qed.

Lemma types_register r l Ts : types (register r l Ts) = types r.
Proof. revert r. induction Ts as [|T Ts IH]; intros r; [done|]. simpl. by rewrite IH. Qed.

Lemma types_unregister r l Ts : types (unregister r l Ts) = types r.
Proof.
  revert r. induction Ts as [|T Ts IH]; intros r; [done|].
  simpl. by rewrite IH, types_unregister1.
Qed.

Lemma registered_register r l Ts k :
  registered (register r l Ts) k
  = if decide (k ∈ key <$> Ts ∧ l ∉ registered r k)
    then registered r k ++ [l] else registered r k.
Proof.
  revert r. induction Ts as [|T Ts IH]; intros r.
  - change (register r l []) with r. rewrite fmap_nil.
    case_decide as H; [by destruct H as [?%elem_of_nil _]|done].
  - change (register r l (T :: Ts)) with (register (register1 l r T) l Ts).
    rewrite IH, registered_register1, fmap_cons.
    repeat case_decide; try done; exfalso;
      repeat match goal with
             | H : _ ∈ _ :: _ |- _ => apply elem_of_cons in H
             | H : ¬ (_ ∈ _ :: _ ∧ _) |- _ => rewrite elem_of_cons in H
             | H : _ ∉ _ ++ _ |- _ => rewrite elem_of_app in H
             | H : ¬ (_ ∧ _ ∉ _ ++ _) |- _ => rewrite elem_of_app in H
             end; set_solver.
Qed.

Lemma registered_unregister r l Ts k :
  NoDup (registered r k) →
  registered (unregister r l Ts) k
  = if decide (k ∈ key <$> Ts) then list_remove l (registered r k)
    else registered r k.
Proof.
  revert r. induction Ts as [|T Ts IH]; intros r Hnd.
  - change (unregister r l []) with r. rewrite fmap_nil.
    case_decide as H; [by apply elem_of_nil in H|done].
  - change (unregister r l (T :: Ts)) with (unregister (unregister1 l r T) l Ts).
    assert (NoDup (registered (unregister1 l r T) k)) as Hnd1.
    { rewrite registered_unregister1.
      destruct (decide (k = key T)); [|done]. by apply list_remove_NoDup. }
    rewrite (IH _ Hnd1), registered_unregister1, fmap_cons.
    destruct (decide (k = key T)) as [->|Hne].
    + rewrite (decide_True (P := key T ∈ key T :: _)) by (apply elem_of_cons; by left).
      destruct (decide (key T ∈ key <$> Ts)); [|done].
      apply list_remove_absent. by apply list_remove_not_elem_of.
    + destruct (decide (k ∈ key <$> Ts)) as [Hin|Hin].
      * by rewrite decide_True by (apply elem_of_cons; by right).
      * rewrite decide_False; [done|].
        intros [?|?]%elem_of_cons; done.
Qed.

Lemma is_Some_register1 l r T k :
  is_Some (listeners (register1 l r T) !! k)
  ↔ k = key T ∨ is_Some (listeners r !! k).
Proof.
  unfold register1. simpl. destruct (decide (k = key T)) as [->|Hne].
  - rewrite lookup_insert_eq. split; [by left|by eexists].
  - rewrite lookup_insert_ne by done. naive_solver.
Qed.

Lemma is_Some_register r l Ts k :
  is_Some (listeners (register r l Ts) !! k)
  ↔ k ∈ key <$> Ts ∨ is_Some (listeners r !! k).
Proof.
  revert r. induction Ts as [|T Ts IH]; intros r.
  - change (register r l []) with r. rewrite fmap_nil. set_solver.
  - change (register r l (T :: Ts)) with (register (register1 l r T) l Ts).
    rewrite IH, is_Some_register1, fmap_cons, elem_of_cons. naive_solver.
Qed.

Lemma lookup_register_other r l Ts k :
  k ∉ key <$> Ts → listeners (register r l Ts) !! k = listeners r !! k.
Proof.
  revert r. induction Ts as [|T Ts IH]; intros r Hk; [done|].
  rewrite fmap_cons in Hk. apply not_elem_of_cons in Hk as [Hne Hk].
  change (register r l (T :: Ts)) with (register (register1 l r T) l Ts).
  rewrite IH by done. unfold register1. simpl. by rewrite lookup_insert_ne.
Qed.

Lemma unregister1_not_registered l r T :
  l ∉ registered r (key T) → unregister1 l r T = r.
Proof.
  unfold registered, unregister1.
  destruct (listeners r !! key T) as [ls|]; [|done].
  simpl. intros Hl. by rewrite decide_False.
Qed.

(** ** [register] and [unregister] *)

(** X1.  [register(listener, *types)] appends the listener to the list of
    every named type that does not hold it yet and changes no list
    otherwise: each list afterwards is the list before, with the listener
    put at its end when the key was named and the listener was not in it.
    Every named key has an entry afterwards, the entries of other keys and
    the type registry are untouched. *)
Theorem register_several_types r l Ts :
  (∀ k, registered (register r l Ts) k
        = if decide (k ∈ key <$> Ts ∧ l ∉ registered r k)
          then registered r k ++ [l] else registered r k)
  ∧ (∀ T, T ∈ Ts → l ∈ registered (register r l Ts) (key T))
  ∧ (∀ k, k ∈ key <$> Ts → is_Some (listeners (register r l Ts) !! k))
  ∧ (∀ k, k ∉ key <$> Ts → listeners (register r l Ts) !! k = listeners r !! k)
  ∧ types (register r l Ts) = types r.
Proof.
  split_and!.
  - apply registered_register.
  - intros T HT. rewrite registered_register.
    assert (key T ∈ key <$> Ts) by (by apply list_elem_of_fmap_2).
    destruct (decide (l ∈ registered r (key T))).
    + by rewrite decide_False by naive_solver.
    + rewrite decide_True by done. apply elem_of_app. right.
      by apply list_elem_of_singleton.
  - intros k Hk. apply is_Some_register. by left.
  - apply lookup_register_other.
  - apply types_register.
Qed.

(** X2.  On a list that holds no listener twice, [unregister(listener,
    *types)] takes the listener out of the list of every named type and
    leaves the other lists alone; afterwards the listener is in none of the
    named lists, and the lists still hold no listener twice. *)
Theorem unregister_several_types r l Ts k :
  NoDup (registered r k) →
  registered (unregister r l Ts) k
  = (if decide (k ∈ key <$> Ts) then list_remove l (registered r k)
     else registered r k)
  ∧ (k ∈ key <$> Ts → l ∉ registered (unregister r l Ts) k)
  ∧ NoDup (registered (unregister r l Ts) k).
Proof.
  intros Hnd. rewrite registered_unregister by done.
  split_and!; [done| |].
  - intros Hk. rewrite decide_True by done. by apply list_remove_not_elem_of.
  - destruct (decide (k ∈ key <$> Ts)); [|done]. by apply list_remove_NoDup.
Qed.

(** Listener 1 is unregistered from both types of a sample receiver. *)
Lemma unregister_several_types_witness :
  let r := self Examples.one_on_both in
  let Ts := [OType Examples.Error; OStr "TickPrice"] in
  registered (unregister r 1 Ts) "Error"
  = (if decide ("Error" ∈ key <$> Ts) then list_remove 1 (registered r "Error")
     else registered r "Error")
  ∧ ("Error" ∈ key <$> Ts → 1 ∉ registered (unregister r 1 Ts) "Error")
  ∧ NoDup (registered (unregister r 1 Ts) "Error").
Proof.
  cbv zeta.
  apply (unregister_several_types (self Examples.one_on_both) 1
           [OType Examples.Error; OStr "TickPrice"] "Error").
  apply NoDup_ListNoDup. vm_compute. repeat constructor; simpl; lia.
Defined.

(** X3.  [unregister] does nothing at all, and raises nothing, for a type
    whose list does not hold the listener, be it that the listener was
    never registered there or that the table has no entry under the type's
    key. *)
Theorem unregister_not_registered r l Ts :
  (∀ T, T ∈ Ts → l ∉ registered r (key T)) →
  unregister r l Ts = r.
Proof.
  revert r. induction Ts as [|T Ts IH]; intros r Hl; [done|].
  change (unregister r l (T :: Ts)) with (unregister (unregister1 l r T) l Ts).
  rewrite unregister1_not_registered by (apply Hl, elem_of_cons; by left).
  apply IH. intros T' HT'. apply Hl, elem_of_cons. by right.
Qed.

(** Listener 9 is registered nowhere, and nothing is registered under the
    key [OpenOrder]. *)
Lemma unregister_not_registered_witness :
  unregister (self Examples.one_on_both) 9 [OType Examples.Error; OStr "OpenOrder"]
  = self Examples.one_on_both.
Proof.
  apply (unregister_not_registered (self Examples.one_on_both) 9
           [OType Examples.Error; OStr "OpenOrder"]).
  intros T HT. apply list_elem_of_In in HT. simpl in HT.
  destruct HT as [<-|[<-|[]]]; vm_compute;
    intros H; apply list_elem_of_In in H; simpl in H; intuition discriminate.
Defined.

Lemma is_Some_unregister r l Ts k :
  is_Some (listeners (unregister r l Ts) !! k) ↔ is_Some (listeners r !! k).
Proof.
  revert r. induction Ts as [|T Ts IH]; intros r; [done|].
  change (unregister r l (T :: Ts)) with (unregister (unregister1 l r T) l Ts).
  by rewrite IH, is_Some_unregister1.
Qed.

Lemma registered_unregister_sublist r l Ts k :
  registered (unregister r l Ts) k `sublist_of` registered r k.
Proof.
  revert r. induction Ts as [|T Ts IH]; intros r; [done|].
  change (unregister r l (T :: Ts)) with (unregister (unregister1 l r T) l Ts).
  etrans; [apply IH|]. rewrite registered_unregister1.
  destruct (decide (k = key T)); [apply list_remove_sublist|done].
Qed.


(** X4.  [unregister] never adds or drops a key of the table (a list that
    becomes empty stays in the table), what is left of each list is in the
    order it had, and the type registry is untouched. *)
Theorem unregister_keeps_entries r l Ts :
  (∀ k, is_Some (listeners (unregister r l Ts) !! k)
        ↔ is_Some (listeners r !! k))
  ∧ (∀ k, registered (unregister r l Ts) k `sublist_of` registered r k)
  ∧ types (unregister r l Ts) = types r.
Proof.
  split_and!; [| |apply types_unregister].
  - intros k. apply is_Some_unregister.
  - intros k. apply registered_unregister_sublist.
Qed.

(** X5.  Registering a listener for a type that does not hold it and
    unregistering it again gives back every list as it was.  The table
    itself may differ: the type's key has an entry afterwards, an empty list
    if it had none before. *)
Theorem register_unregister_round_trip r l T :
  l ∉ registered r (key T) →
  (∀ k, registered (unregister (register r l [T]) l [T]) k = registered r k)
  ∧ listeners (unregister (register r l [T]) l [T]) !! key T
    = Some (registered r (key T))
  ∧ types (unregister (register r l [T]) l [T]) = types r.
Proof.
  intros Hl. split_and!.
  - intros k.
    change (unregister (register r l [T]) l [T])
      with (unregister1 l (register1 l r T) T).
    rewrite registered_unregister1, registered_register1.
    destruct (decide (k = key T)) as [->|Hne].
    + rewrite decide_True by done. by apply list_remove_snoc.
    + by rewrite decide_False by naive_solver.
  - rewrite listeners_unregister_same, listeners_register_same. simpl.
    fold (registered r (key T)). rewrite decide_False by done. simpl.
    f_equal. by apply list_remove_snoc.
  - by rewrite types_unregister, types_register.
Qed.

(** Listener 5 comes and goes on [OpenOrder], which had no entry. *)
Lemma register_unregister_round_trip_witness :
  let r := self Examples.one_on_both in
  let T := OStr "OpenOrder" in
  listeners r !! "OpenOrder" = None
  ∧ (∀ k, registered (unregister (register r 5 [T]) 5 [T]) k = registered r k)
  ∧ listeners (unregister (register r 5 [T]) 5 [T]) !! key T
    = Some (registered r (key T))
  ∧ types (unregister (register r 5 [T]) 5 [T]) = types r.
Proof.
  cbv zeta. split; [reflexivity|].
  apply (register_unregister_round_trip (self Examples.one_on_both) 5
           (OStr "OpenOrder")).
  vm_compute. intros H. apply list_elem_of_In in H. destruct H.
Defined.

(** ** The table stays free of duplicates *)

Lemma deduplicated_registered r :
  deduplicated r ↔ ∀ k, NoDup (registered r k).
Proof.
  unfold deduplicated, registered. split.
  - intros Hd k. destruct (listeners r !! k) as [ls|] eqn:E; simpl.
    + by eapply Hd.
    + constructor.
  - intros Hd k ls E. specialize (Hd k). by rewrite E in Hd.
Qed.

Lemma register_deduplicated r l Ts :
  deduplicated r → deduplicated (register r l Ts).
Proof.
  rewrite !deduplicated_registered. intros Hd k.
  rewrite registered_register.
  destruct (decide (k ∈ key <$> Ts ∧ l ∉ registered r k)) as [[_ Hl]|]; [|done].
  apply NoDup_app. split_and!; [done| |apply NoDup_singleton].
  by intros x Hx ->%list_elem_of_singleton.
Qed.

Lemma unregister_deduplicated r l Ts :
  deduplicated r → deduplicated (unregister r l Ts).
Proof.
  rewrite !deduplicated_registered. intros Hd k.
  eapply sublist_NoDup; [apply Hd|apply registered_unregister_sublist].
Qed.

Section DispatchAndTable.

Variable call : listener → message → call_result.


Lemma dispatch_deduplicated w name mapping res :
  dispatch call w name mapping = Some res →
  deduplicated (self w) → deduplicated (self (final res)).
Proof.
  unfold dispatch. intros Hd Hnd.
  destruct (types (self w) !! name) as [t|] eqn:Ht; [|by injection Hd as <-].
  destruct (listeners (self w) !! key (OType t)) as [ls|] eqn:E;
    [|by injection Hd as <-].
  destruct (construct t mapping) as [e|msg]; [by injection Hd as <-|].
  apply for_listeners_effect in Hd as [_ Ho _ Hn _].
  apply deduplicated_registered. intros k.
  apply deduplicated_registered with (k := k) in Hnd as Hk.
  destruct (decide (k = key (OType t))) as [->|Hne].
  - by apply Hn.
  - unfold registered in *. by rewrite Ho.
Qed.

End DispatchAndTable.

(** X6.  A table that holds no listener twice under a key keeps that
    property under [register], under [unregister] and under [dispatch],
    whatever the listeners do. *)
Theorem table_stays_deduplicated r :
  deduplicated r →
  (∀ l Ts, deduplicated (register r l Ts))
  ∧ (∀ l Ts, deduplicated (unregister r l Ts))
  ∧ (∀ l, deduplicated (registerAll r l) ∧ deduplicated (unregisterAll r l))
  ∧ (∀ call cs out name mapping,
       ∃ res, dispatch call (World r cs out) name mapping = Some res
              ∧ deduplicated (self (final res))).
Proof.
  intros Hd. split_and!.
  - intros l Ts. by apply register_deduplicated.
  - intros l Ts. by apply unregister_deduplicated.
  - intros l. split; [by apply register_deduplicated|by apply unregister_deduplicated].
  - intros call cs out name mapping.
    destruct (dispatch_terminates call (World r cs out) name mapping) as [res Hres].
    exists res. split; [done|]. by eapply dispatch_deduplicated.
Qed.

(** A sample receiver with two listeners on one type and one on another. *)
Lemma table_stays_deduplicated_witness :
  let r := self Examples.one_on_both in
  (∀ l Ts, deduplicated (register r l Ts))
  ∧ (∀ l Ts, deduplicated (unregister r l Ts))
  ∧ (∀ l, deduplicated (registerAll r l) ∧ deduplicated (unregisterAll r l))
  ∧ (∀ call cs out name mapping,
       ∃ res, dispatch call (World r cs out) name mapping = Some res
              ∧ deduplicated (self (final res))).
Proof.
  cbv zeta. apply (table_stays_deduplicated (self Examples.one_on_both)).
  apply (bool_decide_unpack _). vm_compute. exact I.
Defined.

(** ** [registerAll], [unregisterAll] and delivery *)


Section Delivery.

Variable call : listener → message → call_result.


End Delivery.







(** ** What the loop of [dispatch] reaches, writes and leaves *)



Lemma reached_no_fault call msg ls :
  (∀ l, l ∈ ls → call l msg = Ret) → reached call msg ls = ls.
Proof.
  induction ls as [|l rest IH]; intros Hret; [done|].
  simpl. rewrite (Hret l) by (apply elem_of_cons; by left).
  f_equal. apply IH. intros l' Hl'. apply Hret, elem_of_cons. by right.
Qed.

Section LoopTrace.

Variable call : listener → message → call_result.
Variables (name : string) (t : mtype) (msg : message).

Abbreviation kd := (key (OType t)).





End LoopTrace.



Section DispatchTrace.

Variable call : listener → message → call_result.



End DispatchTrace.

(** ** [dispatch] when listeners raise *)









